(** * Beam-optics element maps of ImpactX

    A shallow embedding of the per-particle and reference-particle maps of
    the elements [Aperture], [ExactSbend], [CFbend], [Kicker], [DipEdge]
    and [ShortRF] (src/src/particles/elements/*.H, src/unnamed/part_001).

    Arithmetic on [amrex::ParticleReal] is modelled with exact real
    numbers.  A value that may become non-finite is a [fl := option R]:
    [Some r] is a finite value, [None] a non-finite one (NaN).  Division by
    zero, [sqrt] of a negative number and [asin] outside [-1,1] give
    [None], and every operation on [None] stays [None], as NaN does.  An
    ordered comparison with [None] is false, as it is for NaN. *)

From Stdlib Require Import Reals Psatz ZArith Lia.

Open Scope R_scope.

(** ** Possibly non-finite reals *)

Definition fl := option R.

Definition lit (r : R) : fl := Some r.

Definition lift1 (f : R -> R) (a : fl) : fl :=
  match a with Some u => Some (f u) | None => None end.

Definition lift2 (f : R -> R -> R) (a b : fl) : fl :=
  match a, b with Some u, Some v => Some (f u v) | _, _ => None end.

Definition fadd := lift2 Rplus.
Definition fsub := lift2 Rminus.
Definition fmul := lift2 Rmult.
Definition fopp := lift1 Ropp.

(** [a / b]: non-finite when [b] is zero. *)
Definition fdiv (a b : fl) : fl :=
  match a, b with
  | Some u, Some v => if Req_EM_T v 0 then None else Some (u / v)
  | _, _ => None
  end.

(** [std::pow(a, n)] for a non-negative integer exponent. *)
Definition fpow (a : fl) (n : nat) : fl := lift1 (fun u => u ^ n) a.

(** [std::pow(a, -2)]: non-finite at zero. *)
Definition fpow_m2 (a : fl) : fl := fdiv (lit 1) (fpow a 2).

(** [std::sqrt]: NaN for a negative argument. *)
Definition fsqrt (a : fl) : fl :=
  match a with
  | Some u => if Rlt_dec u 0 then None else Some (sqrt u)
  | None => None
  end.

(** [std::asin]: NaN outside [-1, 1]. *)
Definition fasin (a : fl) : fl :=
  match a with
  | Some u => if Rle_dec (Rabs u) 1 then Some (asin u) else None
  | None => None
  end.

Definition fabs := lift1 Rabs.
Definition fsin := lift1 sin.
Definition fcos := lift1 cos.
Definition fsinh := lift1 sinh.
Definition fcosh := lift1 cosh.
Definition ftan (a : fl) : fl := fdiv (fsin a) (fcos a).

(** [a > r] on a floating value: false for NaN. *)
Definition fgt (a : fl) (r : R) : bool :=
  match a with
  | Some u => if Rlt_dec r u then true else false
  | None => false
  end.

Declare Scope fl_scope.
Delimit Scope fl_scope with fl.
Infix "+" := fadd : fl_scope.
Infix "-" := fsub : fl_scope.
Infix "*" := fmul : fl_scope.
Infix "/" := fdiv : fl_scope.
Notation "- a" := (fopp a) : fl_scope.

(** ** Particle data (ImpactXParticleContainer.H) *)

(** One macro-particle: the AoS positions [x, y, t] and the id, and the SoA
    momenta [px, py, pt] passed to each map by reference. *)
Module Particle.
Record state := mk {
  x : fl; y : fl; t : fl;
  px : fl; py : fl; pt : fl;
  id : Z
}.
End Particle.

(** The reference particle (fields read and written by the maps). *)
Module RefPart.
Record state := mk {
  x : fl; y : fl; z : fl; t : fl;
  px : fl; py : fl; pz : fl; pt : fl;
  s : fl;
  mass : R;   (* rest mass in kg *)
  charge : R  (* charge in C *)
}.
End RefPart.

(** Speed of light (ablastr::constant::SI::c). *)
Definition c_light : R := 299792458.

(** Modelled from the spec: the derived accessors of ReferenceParticle.H
    (not in src/).  The spec calls them pure functions of the stored state:
    relativistic beta*gamma, beta and the magnetic rigidity (momentum over
    charge).  [beta_gamma] is [sqrt(pt^2 - 1)] and [beta] is
    [sqrt(bg2 / (1 + bg2))], the expressions the element maps of src/ use
    inline for the same quantities. *)
Definition beta_gamma (r : RefPart.state) : fl :=
  fsqrt (fpow (RefPart.pt r) 2 - lit 1)%fl.

Definition beta (r : RefPart.state) : fl :=
  let betgam2 := (fpow (RefPart.pt r) 2 - lit 1)%fl in
  fsqrt (betgam2 / (lit 1 + betgam2))%fl.

Definition rigidity_Tm (r : RefPart.state) : fl :=
  (lit (RefPart.mass r * c_light) * beta_gamma r / lit (RefPart.charge r))%fl.

(** ** Aperture (Aperture.H) *)

Inductive Shape := rectangular | elliptical.

Record Aperture := mkAperture {
  ap_shape : Shape;
  ap_xmax : R;
  ap_ymax : R
}.

(** The boundary test of [Aperture::operator()]. *)
Definition aperture_lost (e : Aperture) (p : Particle.state) : bool :=
  let x := Particle.x p in
  let y := Particle.y p in
  let u := (x / lit (ap_xmax e))%fl in
  let v := (y / lit (ap_ymax e))%fl in
  match ap_shape e with
  | rectangular => orb (fgt (fpow u 2) 1) (fgt (fpow v 2) 1)
  | elliptical => fgt (fpow u 2 + fpow v 2)%fl 1
  end.

Definition aperture_push (e : Aperture) (p : Particle.state) (refpart : RefPart.state)
  : Particle.state :=
  let id := Particle.id p in
  if aperture_lost e p
  then Particle.mk (Particle.x p) (Particle.y p) (Particle.t p)
         (Particle.px p) (Particle.py p) (Particle.pt p) (- id)%Z
  else p.

(** ** ExactSbend (ExactSbend.H) *)

Definition degree2rad : R := PI / 180.

(** The element stores the bend angle in radians; [nslice] is the slice
    count of the Thick mixin. *)
Record ExactSbend := mkExactSbendRaw {
  es_ds : R;
  es_phi : R;
  es_B : R;
  es_nslice : Z
}.

(** Constructor: the angle is given in degrees. *)
Definition mkExactSbend (ds phi B : R) (nslice : Z) : ExactSbend :=
  mkExactSbendRaw ds (phi * degree2rad) B nslice.

(** Reference particle's orbital radius. *)
Definition es_rc (e : ExactSbend) (refpart : RefPart.state) : fl :=
  if Req_EM_T (es_B e) 0 then (lit (es_ds e) / lit (es_phi e))%fl
  else (rigidity_Tm refpart / lit (es_B e))%fl.

Local Open Scope fl_scope.

Definition exactsbend_push (e : ExactSbend) (p : Particle.state)
  (refpart : RefPart.state) : Particle.state :=
  let x := Particle.x p in
  let y := Particle.y p in
  let t := Particle.t p in
  let px := Particle.px p in
  let py := Particle.py p in
  let pt := Particle.pt p in
  let slice_phi := lit (es_phi e) / lit (IZR (es_nslice e)) in
  let bet := beta refpart in
  let rc := es_rc e refpart in
  let pperp := fsqrt (fpow pt 2 - lit 2 / bet * pt - fpow py 2 + lit 1) in
  let pzi := fsqrt (fpow pperp 2 - fpow px 2) in
  let rho := rc + x in
  let sin_phi := fsin slice_phi in
  let cos_phi := fcos slice_phi in
  let pxout := px * cos_phi + (pzi - rho / rc) * sin_phi in
  let pyout := py in
  let ptout := pt in
  let pzf := fsqrt (fpow pperp 2 - fpow pxout 2) in
  let theta := slice_phi + fasin (px / pperp) - fasin (pxout / pperp) in
  Particle.mk
    (- rc + rho * cos_phi + rc * (pzf + px * sin_phi - pzi * cos_phi))
    (y + theta * rc * py)
    (t - theta * rc * (pt - lit 1 / bet) - lit (es_phi e) * rc / bet)
    pxout pyout ptout (Particle.id p).

Definition exactsbend_push_ref (e : ExactSbend) (refpart : RefPart.state)
  : RefPart.state :=
  let x := RefPart.x refpart in
  let px := RefPart.px refpart in
  let y := RefPart.y refpart in
  let py := RefPart.py refpart in
  let z := RefPart.z refpart in
  let pz := RefPart.pz refpart in
  let t := RefPart.t refpart in
  let pt := RefPart.pt refpart in
  let s := RefPart.s refpart in
  let slice_ds := lit (es_ds e) / lit (IZR (es_nslice e)) in
  let theta := lit (es_phi e) / lit (IZR (es_nslice e)) in
  let rc := es_rc e refpart in
  let B := beta_gamma refpart / rc in
  let sin_theta := fsin theta in
  let cos_theta := fcos theta in
  let px' := px * cos_theta - pz * sin_theta in
  let py' := py in
  let pz' := pz * cos_theta + px * sin_theta in
  let pt' := pt in
  RefPart.mk
    (x + (pz' - pz) / B)
    (y + (theta / B) * py)
    (z - (px' - px) / B)
    (t - (theta / B) * pt)
    px' py' pz' pt'
    (s + slice_ds)
    (RefPart.mass refpart) (RefPart.charge refpart).

(** ** CFbend (src/unnamed/part_001) *)

Record CFbend := mkCFbend {
  cf_ds : R;
  cf_rc : R;
  cf_k : R;
  cf_nslice : Z
}.

Definition cfbend_push (e : CFbend) (p : Particle.state)
  (refpart : RefPart.state) : Particle.state :=
  let x := Particle.x p in
  let y := Particle.y p in
  let t := Particle.t p in
  let px := Particle.px p in
  let py := Particle.py p in
  let pt := Particle.pt p in
  let m_rc := lit (cf_rc e) in
  let slice_ds := lit (cf_ds e) / lit (IZR (cf_nslice e)) in
  let pt_ref := RefPart.pt refpart in
  let betgam2 := fpow pt_ref 2 - lit 1 in
  let bet := fsqrt (betgam2 / (lit 1 + betgam2)) in
  (* horizontal and longitudinal phase space *)
  let gx := lit (cf_k e) + fpow_m2 m_rc in
  let omegax := fsqrt (fabs gx) in
  let '(x', pxout, t', ptout) :=
    if fgt gx 0 then
      let sinx := fsin (omegax * slice_ds) in
      let cosx := fcos (omegax * slice_ds) in
      let r56 := slice_ds / betgam2
        + (sinx - omegax * slice_ds) / (gx * omegax * fpow bet 2 * fpow m_rc 2) in
      (cosx * x + sinx / omegax * px - (lit 1 - cosx) / (gx * bet * m_rc) * pt,
       - omegax * sinx * x + cosx * px - sinx / (omegax * bet * m_rc) * pt,
       sinx / (omegax * bet * m_rc) * x + (lit 1 - cosx) / (gx * bet * m_rc) * px
         + t + r56 * pt,
       pt)
    else
      let sinhx := fsinh (omegax * slice_ds) in
      let coshx := fcosh (omegax * slice_ds) in
      let r56 := slice_ds / betgam2
        + (sinhx - omegax * slice_ds) / (gx * omegax * fpow bet 2 * fpow m_rc 2) in
      (coshx * x + sinhx / omegax * px - (lit 1 - coshx) / (gx * bet * m_rc) * pt,
       omegax * sinhx * x + coshx * px - sinhx / (omegax * bet * m_rc) * pt,
       sinhx / (omegax * bet * m_rc) * x + (lit 1 - coshx) / (gx * bet * m_rc) * px
         + t + r56 * pt,
       pt) in
  (* vertical phase space *)
  let gy := - lit (cf_k e) in
  let omegay := fsqrt (fabs gy) in
  let '(y', pyout) :=
    if fgt gy 0 then
      let siny := fsin (omegay * slice_ds) in
      let cosy := fcos (omegay * slice_ds) in
      (cosy * y + siny / omegay * py, - omegay * siny * y + cosy * py)
    else
      let sinhy := fsinh (omegay * slice_ds) in
      let coshy := fcosh (omegay * slice_ds) in
      (coshy * y + sinhy / omegay * py, omegay * sinhy * y + coshy * py) in
  Particle.mk x' y' t' pxout pyout ptout (Particle.id p).

Definition cfbend_push_ref (e : CFbend) (refpart : RefPart.state)
  : RefPart.state :=
  let x := RefPart.x refpart in
  let px := RefPart.px refpart in
  let y := RefPart.y refpart in
  let py := RefPart.py refpart in
  let z := RefPart.z refpart in
  let pz := RefPart.pz refpart in
  let t := RefPart.t refpart in
  let pt := RefPart.pt refpart in
  let s := RefPart.s refpart in
  let m_rc := lit (cf_rc e) in
  let slice_ds := lit (cf_ds e) / lit (IZR (cf_nslice e)) in
  let theta := slice_ds / m_rc in
  let B := fsqrt (fpow pt 2 - lit 1) / m_rc in
  let sin_theta := fsin theta in
  let cos_theta := fcos theta in
  let px' := px * cos_theta - pz * sin_theta in
  let py' := py in
  let pz' := pz * cos_theta + px * sin_theta in
  let pt' := pt in
  RefPart.mk
    (x + (pz' - pz) / B)
    (y + (theta / B) * py)
    (z - (px' - px) / B)
    (t - (theta / B) * pt)
    px' py' pz' pt'
    (s + slice_ds)
    (RefPart.mass refpart) (RefPart.charge refpart).

(** ** Kicker (Kicker.H) *)

Inductive UnitSystem := dimensionless | Tm.

Record Kicker := mkKicker {
  kk_xkick : R;
  kk_ykick : R;
  kk_unit : UnitSystem
}.

Definition kicker_push (e : Kicker) (p : Particle.state)
  (refpart : RefPart.state) : Particle.state :=
  let x := Particle.x p in
  let y := Particle.y p in
  let t := Particle.t p in
  let px := Particle.px p in
  let py := Particle.py p in
  let pt := Particle.pt p in
  let '(dpx, dpy) :=
    match kk_unit e with
    | Tm => (lit (kk_xkick e) / rigidity_Tm refpart,
             lit (kk_ykick e) / rigidity_Tm refpart)
    | dimensionless => (lit (kk_xkick e), lit (kk_ykick e))
    end in
  Particle.mk x y t (px + dpx) (py + dpy) pt (Particle.id p).

(** ** DipEdge (DipEdge.H) *)

Record DipEdge := mkDipEdge {
  de_psi : R;
  de_rc : R;
  de_g : R;
  de_K2 : R
}.

(** [std::tan] of a finite argument is finite. *)
Definition ftan_std := lift1 tan.

Definition dipedge_push (e : DipEdge) (p : Particle.state)
  (refpart : RefPart.state) : Particle.state :=
  let x := Particle.x p in
  let y := Particle.y p in
  let m_psi := lit (de_psi e) in
  let m_rc := lit (de_rc e) in
  (* edge focusing matrix elements (zero gap) *)
  let R21 := ftan_std m_psi / m_rc in
  let R43 := - R21 in
  (* first-order effect of nonzero gap *)
  let vf := (lit 1 + fpow (fsin m_psi) 2) / fpow (fcos m_psi) 3 in
  let vf := vf * (lit (de_g e) * lit (de_K2 e) / fpow m_rc 2) in
  let R43 := R43 + vf in
  Particle.mk x y (Particle.t p)
    (Particle.px p + R21 * x) (Particle.py p + R43 * y) (Particle.pt p)
    (Particle.id p).

(** ** ShortRF (ShortRF.H) *)

Record ShortRF := mkShortRF {
  rf_V : R;
  rf_freq : R;
  rf_phase : R   (* degrees *)
}.

Definition shortrf_push (e : ShortRF) (p : Particle.state)
  (refpart : RefPart.state) : Particle.state :=
  let x := Particle.x p in
  let y := Particle.y p in
  let t := Particle.t p in
  let k := lit ((2 * PI / c_light) * rf_freq e) in
  let phi := lit (rf_phase e * (PI / 180)) in
  let m_V := lit (rf_V e) in
  let ptf_ref := RefPart.pt refpart in
  let pti_ref := ptf_ref + m_V * fcos phi in
  let bgf := fsqrt (fpow ptf_ref 2 - lit 1) in
  let bgi := fsqrt (fpow pti_ref 2 - lit 1) in
  (* static to dynamic units *)
  let px := Particle.px p * bgi in
  let py := Particle.py p * bgi in
  let pt := Particle.pt p * bgi in
  let ptout := pt - m_V * fcos (k * t + phi) + m_V * fcos phi in
  (* dynamic to static units *)
  Particle.mk x y t (px / bgf) (py / bgf) (ptout / bgf) (Particle.id p).

Definition shortrf_push_ref (e : ShortRF) (refpart : RefPart.state)
  : RefPart.state :=
  let x := RefPart.x refpart in
  let px := RefPart.px refpart in
  let y := RefPart.y refpart in
  let py := RefPart.py refpart in
  let z := RefPart.z refpart in
  let pz := RefPart.pz refpart in
  let t := RefPart.t refpart in
  let pt := RefPart.pt refpart in
  let phi := lit (rf_phase e * (PI / 180)) in
  let m_V := lit (rf_V e) in
  let bgi := fsqrt (fpow pt 2 - lit 1) in
  let pt' := pt - m_V * fcos phi in
  let bgf := fsqrt (fpow pt' 2 - lit 1) in
  RefPart.mk x y z t
    (px * bgf / bgi) (py * bgf / bgi) (pz * bgf / bgi) pt'
    (RefPart.s refpart) (RefPart.mass refpart) (RefPart.charge refpart).

(** ** ThinDipole (src/unnamed/part_000) *)

Record ThinDipole := mkThinDipoleRaw {
  td_theta : R;   (* radians *)
  td_rc : R
}.

(** Constructor: the bending angle is given in degrees. *)
Definition mkThinDipole (theta rc : R) : ThinDipole :=
  mkThinDipoleRaw (theta * degree2rad) rc.

Definition thindipole_push (e : ThinDipole) (p : Particle.state)
  (refpart : RefPart.state) : Particle.state :=
  let x := Particle.x p in
  let y := Particle.y p in
  let t := Particle.t p in
  let px := Particle.px p in
  let py := Particle.py p in
  let pt := Particle.pt p in
  let beta_ref := beta refpart in
  (* dp/p as a function of pt (f in Ripken and Schmidt) *)
  let f := - lit 1 + fsqrt (lit 1 - lit 2 * pt / beta_ref + fpow pt 2) in
  let fprime := (lit 1 - beta_ref * pt) / (beta_ref * (lit 1 + f)) in
  (* effective arc length and curvature *)
  let ds := lit (td_theta e) * lit (td_rc e) in
  let kx := lit 1 / lit (td_rc e) in
  Particle.mk x y (t + kx * x * ds * fprime)
    (px - fpow kx 2 * ds * x + kx * ds * f) py pt (Particle.id p).

Close Scope fl_scope.

(** ** Element interface (mixin/beamoptic.H, mixin/thin.H) *)

(** Every element has a per-particle map and a reference-particle map. *)
Class BeamOptic (E : Type) := {
  push : E -> Particle.state -> RefPart.state -> Particle.state;
  push_ref : E -> RefPart.state -> RefPart.state
}.

(** Modelled from the spec: the reference map of the Thin mixin
    (mixin/thin.H, not in src/): zero-length elements leave the reference
    particle unchanged. *)
Definition thin_push_ref {E : Type} (_ : E) (refpart : RefPart.state)
  : RefPart.state := refpart.

#[export] Instance Aperture_optic : BeamOptic Aperture :=
  { push := aperture_push; push_ref := thin_push_ref }.
#[export] Instance ExactSbend_optic : BeamOptic ExactSbend :=
  { push := exactsbend_push; push_ref := exactsbend_push_ref }.
#[export] Instance CFbend_optic : BeamOptic CFbend :=
  { push := cfbend_push; push_ref := cfbend_push_ref }.
#[export] Instance Kicker_optic : BeamOptic Kicker :=
  { push := kicker_push; push_ref := thin_push_ref }.
#[export] Instance DipEdge_optic : BeamOptic DipEdge :=
  { push := dipedge_push; push_ref := thin_push_ref }.
#[export] Instance ShortRF_optic : BeamOptic ShortRF :=
  { push := shortrf_push; push_ref := shortrf_push_ref }.
#[export] Instance ThinDipole_optic : BeamOptic ThinDipole :=
  { push := thindipole_push; push_ref := thin_push_ref }.

(** [n] slices of an element's reference map. *)
Definition push_ref_n {E} `{BeamOptic E} (e : E) (n : nat) (r : RefPart.state)
  : RefPart.state := Nat.iter n (push_ref e) r.

(** * Properties *)

(** ** Arithmetic on finite values *)

Lemma fdiv_fin (a b : R) : b <> 0 -> fdiv (Some a) (Some b) = Some (a / b).
Proof. intros Hb; unfold fdiv; destruct (Req_EM_T b 0); [contradiction | reflexivity]. Qed.

Lemma fdiv_zero (a : fl) : fdiv a (Some 0) = None.
Proof. destruct a; [unfold fdiv; destruct (Req_EM_T 0 0); [reflexivity | lra] | reflexivity]. Qed.

Lemma fgt_true (u r : R) : r < u -> fgt (Some u) r = true.
Proof. intros H; unfold fgt; destruct (Rlt_dec r u); [reflexivity | lra]. Qed.

Lemma fgt_false (u r : R) : u <= r -> fgt (Some u) r = false.
Proof. intros H; unfold fgt; destruct (Rlt_dec r u); [lra | reflexivity]. Qed.

Lemma fsqrt_neg (u : R) : u < 0 -> fsqrt (Some u) = None.
Proof. intros H; unfold fsqrt; destruct (Rlt_dec u 0); [reflexivity | lra]. Qed.

Lemma fsqrt_nonneg (u : R) : 0 <= u -> fsqrt (Some u) = Some (sqrt u).
Proof. intros H; unfold fsqrt; destruct (Rlt_dec u 0); [lra | reflexivity]. Qed.

(** ** Aperture *)

(** The scaled coordinates of a finite particle. *)
Lemma aperture_lost_fin (sh : Shape) (xmax ymax : R) (p : Particle.state) (xv yv : R) :
  xmax <> 0 -> ymax <> 0 ->
  Particle.x p = Some xv -> Particle.y p = Some yv ->
  aperture_lost (mkAperture sh xmax ymax) p =
  match sh with
  | rectangular => orb (fgt (Some ((xv / xmax) ^ 2)) 1) (fgt (Some ((yv / ymax) ^ 2)) 1)
  | elliptical => fgt (Some ((xv / xmax) ^ 2 + (yv / ymax) ^ 2)) 1
  end.
Proof.
  intros Hx Hy Hxv Hyv; unfold aperture_lost; cbn [ap_shape ap_xmax ap_ymax].
  rewrite Hxv, Hyv, !fdiv_fin by assumption; reflexivity.
Qed.

(** C2: with positive half-widths, a particle on the unit-normalised
    boundary (rectangular: max(u^2, v^2) = 1; elliptical: u^2 + v^2 = 1) is
    not marked lost; u^2 + v^2 = 1.01 under the elliptical shape negates the
    id, keeping its magnitude; |u| = 1.2, |v| = 0 under the rectangular
    shape negates the id. *)
Theorem aperture_boundary_inclusive (xmax ymax : R) (Hx : 0 < xmax) (Hy : 0 < ymax)
  (r : RefPart.state) :
  (forall p xv yv, Particle.x p = Some xv -> Particle.y p = Some yv ->
     Rmax ((xv / xmax) ^ 2) ((yv / ymax) ^ 2) = 1 ->
     aperture_push (mkAperture rectangular xmax ymax) p r = p) /\
  (forall p xv yv, Particle.x p = Some xv -> Particle.y p = Some yv ->
     (xv / xmax) ^ 2 + (yv / ymax) ^ 2 = 1 ->
     aperture_push (mkAperture elliptical xmax ymax) p r = p) /\
  (forall p xv yv, Particle.x p = Some xv -> Particle.y p = Some yv ->
     (xv / xmax) ^ 2 + (yv / ymax) ^ 2 = 101 / 100 ->
     Particle.id (aperture_push (mkAperture elliptical xmax ymax) p r)
       = (- Particle.id p)%Z /\
     Z.abs (Particle.id (aperture_push (mkAperture elliptical xmax ymax) p r))
       = Z.abs (Particle.id p)) /\
  (forall p xv yv, Particle.x p = Some xv -> Particle.y p = Some yv ->
     Rabs (xv / xmax) = 12 / 10 -> Rabs (yv / ymax) = 0 ->
     Particle.id (aperture_push (mkAperture rectangular xmax ymax) p r)
       = (- Particle.id p)%Z).
Proof.
  assert (Hx0 : xmax <> 0) by lra.
  assert (Hy0 : ymax <> 0) by lra.
  split; [|split; [|split]]; intros p xv yv Hxv Hyv; intros;
    unfold aperture_push; rewrite (aperture_lost_fin _ _ _ p xv yv) by assumption.
  - pose proof (Rmax_l ((xv / xmax) ^ 2) ((yv / ymax) ^ 2)).
    pose proof (Rmax_r ((xv / xmax) ^ 2) ((yv / ymax) ^ 2)).
    rewrite !fgt_false by lra; reflexivity.
  - rewrite fgt_false by lra; reflexivity.
  - rewrite fgt_true by lra; cbn; split; [reflexivity | lia].
  - rewrite <- pow2_abs, H, fgt_true by lra; reflexivity.
Qed.

Lemma aperture_boundary_inclusive_witness :
  0 < 2 /\ 0 < 4 /\
  aperture_push (mkAperture elliptical 2 4)
    (Particle.mk (Some 2) (Some 0) None None None None 7%Z)
    (RefPart.mk None None None None None None None None None 1 1)
  = Particle.mk (Some 2) (Some 0) None None None None 7%Z.
Proof.
  split; [lra | split; [lra |]].
  refine (proj1 (proj2 (aperture_boundary_inclusive 2 4 _ _ _))
     (Particle.mk (Some 2) (Some 0) None None None None 7%Z) 2 0 eq_refl eq_refl _);
    [lra | lra | unfold Rdiv; simpl; lra].
Defined.

(** C9: the aperture map leaves positions and momenta unchanged and only
    negates the id, exactly when the boundary test fails; the particle is
    returned, not removed. *)
Theorem aperture_frame (e : Aperture) (p : Particle.state) (r : RefPart.state) :
  let p' := aperture_push e p r in
  Particle.x p' = Particle.x p /\ Particle.y p' = Particle.y p /\
  Particle.t p' = Particle.t p /\ Particle.px p' = Particle.px p /\
  Particle.py p' = Particle.py p /\ Particle.pt p' = Particle.pt p /\
  Particle.id p' = (if aperture_lost e p then - Particle.id p else Particle.id p)%Z /\
  Z.abs (Particle.id p') = Z.abs (Particle.id p).
Proof.
  cbv zeta; unfold aperture_push.
  destruct (aperture_lost e p); cbn; repeat split; lia.
Qed.

(** C10: on a particle outside the boundary, applying the aperture twice
    gives the particle back (the id is negated twice); a particle already
    marked lost (negative id) and still outside is made live again. *)
Theorem aperture_involution (e : Aperture) (p : Particle.state) (r : RefPart.state)
  (Hout : aperture_lost e p = true) :
  aperture_push e (aperture_push e p r) r = p /\
  (Particle.id p < 0 -> 0 < Particle.id (aperture_push e p r))%Z.
Proof.
  unfold aperture_push at 2; rewrite Hout.
  unfold aperture_push.
  assert (Hsame : aperture_lost e (Particle.mk (Particle.x p) (Particle.y p) (Particle.t p)
            (Particle.px p) (Particle.py p) (Particle.pt p) (- Particle.id p)%Z)
          = aperture_lost e p) by reflexivity.
  rewrite Hsame, Hout; cbn.
  split.
  - destruct p; cbn; rewrite Z.opp_involutive; reflexivity.
  - lia.
Qed.

Lemma aperture_involution_witness :
  let e := mkAperture rectangular 1 1 in
  let p := Particle.mk (Some 2) (Some 0) None None None None (-5)%Z in
  let r := RefPart.mk None None None None None None None None None 1 1 in
  aperture_lost e p = true /\ aperture_push e (aperture_push e p r) r = p /\
  (0 < Particle.id (aperture_push e p r))%Z.
Proof.
  intros e p r.
  assert (H : aperture_lost e p = true).
  { unfold e; rewrite (aperture_lost_fin rectangular 1 1 p 2 0) by (reflexivity || lra).
    rewrite fgt_true; [reflexivity | unfold Rdiv; lra]. }
  split; [exact H |].
  destruct (aperture_involution e p r H) as [H1 H2].
  split; [exact H1 | apply H2; reflexivity].
Defined.

(** ** Non-finite propagation *)

Lemma lift2_none_r (f : R -> R -> R) (a : fl) : lift2 f a None = None.
Proof. destruct a; reflexivity. Qed.

Lemma fdiv_none_r (a : fl) : fdiv a None = None.
Proof. destruct a; reflexivity. Qed.

Lemma fdiv_zero_eq (a : fl) (v : R) : v = 0 -> fdiv a (Some v) = None.
Proof. intros ->; apply fdiv_zero. Qed.

(** ** Energy invariance of the bends *)

(** C5: the ExactSbend and CFbend maps, for particles and for the reference
    particle, leave [pt] unchanged. *)
Theorem bends_pt_invariant :
  (forall (e : ExactSbend) p r, Particle.pt (exactsbend_push e p r) = Particle.pt p) /\
  (forall (e : ExactSbend) r, RefPart.pt (exactsbend_push_ref e r) = RefPart.pt r) /\
  (forall (e : CFbend) p r, Particle.pt (cfbend_push e p r) = Particle.pt p) /\
  (forall (e : CFbend) r, RefPart.pt (cfbend_push_ref e r) = RefPart.pt r).
Proof.
  split; [|split; [|split]]; intros; try reflexivity.
  unfold cfbend_push; cbv zeta.
  destruct (fgt _ 0); destruct (fgt _ 0); reflexivity.
Qed.

(** ** Path length of the thick elements *)

Lemma exactsbend_push_ref_s (e : ExactSbend) (r : RefPart.state) (s0 : R) :
  IZR (es_nslice e) <> 0 -> RefPart.s r = Some s0 ->
  RefPart.s (exactsbend_push_ref e r) = Some (s0 + es_ds e / IZR (es_nslice e)).
Proof.
  intros Hn Hs; unfold exactsbend_push_ref; cbn [RefPart.s].
  rewrite Hs; unfold lit; rewrite fdiv_fin by exact Hn; reflexivity.
Qed.

Lemma cfbend_push_ref_s (e : CFbend) (r : RefPart.state) (s0 : R) :
  IZR (cf_nslice e) <> 0 -> RefPart.s r = Some s0 ->
  RefPart.s (cfbend_push_ref e r) = Some (s0 + cf_ds e / IZR (cf_nslice e)).
Proof.
  intros Hn Hs; unfold cfbend_push_ref; cbn [RefPart.s].
  rewrite Hs; unfold lit; rewrite fdiv_fin by exact Hn; reflexivity.
Qed.

(** A reference map that adds [d] to [s] adds [k * d] in [k] slices. *)
Lemma push_ref_n_s {E} `{BeamOptic E} (e : E) (d : R) :
  (forall r s0, RefPart.s r = Some s0 -> RefPart.s (push_ref e r) = Some (s0 + d)) ->
  forall k r s0, RefPart.s r = Some s0 ->
  RefPart.s (push_ref_n e k r) = Some (s0 + INR k * d).
Proof.
  intros Hstep k; induction k as [|k IH]; intros r s0 Hs.
  - cbn; rewrite Hs; f_equal; ring.
  - change (push_ref_n e (S k) r) with (push_ref e (push_ref_n e k r)).
    rewrite (Hstep _ (s0 + INR k * d)) by (apply IH; exact Hs).
    rewrite S_INR; f_equal; ring.
Qed.

Lemma slices_total (n : Z) (d s0 : R) :
  (1 <= n)%Z -> s0 + INR (Z.to_nat n) * (d / IZR n) = s0 + d.
Proof.
  intros Hn.
  rewrite INR_IZR_INZ, Z2Nat.id by lia.
  assert (IZR n <> 0) by (apply not_0_IZR; lia).
  field; assumption.
Qed.

(** C4: for [nslice >= 1], one slice of the ExactSbend or CFbend reference
    map adds [ds / nslice] to the path length [s], and [nslice] slices add
    the element's length [ds]. *)
Theorem thick_path_length (nslice : Z) (Hn : (1 <= nslice)%Z) (s0 : R) :
  (forall (e : ExactSbend) r, es_nslice e = nslice -> RefPart.s r = Some s0 ->
     RefPart.s (exactsbend_push_ref e r) = Some (s0 + es_ds e / IZR nslice) /\
     RefPart.s (push_ref_n e (Z.to_nat nslice) r) = Some (s0 + es_ds e)) /\
  (forall (e : CFbend) r, cf_nslice e = nslice -> RefPart.s r = Some s0 ->
     RefPart.s (cfbend_push_ref e r) = Some (s0 + cf_ds e / IZR nslice) /\
     RefPart.s (push_ref_n e (Z.to_nat nslice) r) = Some (s0 + cf_ds e)).
Proof.
  assert (Hn0 : IZR nslice <> 0) by (apply not_0_IZR; lia).
  split; intros e r He Hs; subst nslice; split.
  - apply exactsbend_push_ref_s; assumption.
  - rewrite <- (slices_total (es_nslice e) (es_ds e) s0 Hn).
    apply push_ref_n_s; [|exact Hs].
    intros r' s' Hs'; apply exactsbend_push_ref_s; assumption.
  - apply cfbend_push_ref_s; assumption.
  - rewrite <- (slices_total (cf_nslice e) (cf_ds e) s0 Hn).
    apply push_ref_n_s; [|exact Hs].
    intros r' s' Hs'; apply cfbend_push_ref_s; assumption.
Qed.

Lemma thick_path_length_witness :
  let e := mkExactSbend 2 10 0 4 in
  let r := RefPart.mk None None None None None None None None (Some 0) 1 1 in
  (1 <= 4)%Z /\ es_nslice e = 4%Z /\ RefPart.s r = Some 0 /\
  RefPart.s (push_ref_n e 4 r) = Some (0 + 2).
Proof.
  intros e r.
  split; [lia | split; [reflexivity | split; [reflexivity |]]].
  exact (proj2 (proj1 (thick_path_length 4 ltac:(lia) 0) e r eq_refl eq_refl)).
Defined.

(** ** ShortRF reference map *)

(** C8: the ShortRF reference map sets [pt] to [pt - V cos(phi)], with
    [phi] the phase in radians, leaves [x, y, z, t] unchanged, and the new
    [pt] depends on nothing but the old [pt] (in particular not on [t]). *)
Theorem shortrf_ref_on_crest (e : ShortRF) (r : RefPart.state) :
  let r' := shortrf_push_ref e r in
  RefPart.pt r' = (RefPart.pt r - lit (rf_V e * cos (rf_phase e * (PI / 180))))%fl /\
  RefPart.x r' = RefPart.x r /\ RefPart.y r' = RefPart.y r /\
  RefPart.z r' = RefPart.z r /\ RefPart.t r' = RefPart.t r /\
  (forall r2, RefPart.pt r2 = RefPart.pt r ->
     RefPart.pt (shortrf_push_ref e r2) = RefPart.pt r').
Proof.
  cbv zeta; repeat split.
  intros r2 H; unfold shortrf_push_ref; cbn [RefPart.pt]; rewrite H; reflexivity.
Qed.

Lemma shortrf_ref_on_crest_witness :
  let e := mkShortRF 2 1 0 in
  let r := RefPart.mk None None None (Some 5) None None None (Some (-3)) None 1 1 in
  let r2 := RefPart.mk None None None (Some 7) None None None (Some (-3)) None 1 1 in
  RefPart.pt r2 = RefPart.pt r /\
  RefPart.pt (shortrf_push_ref e r2) = RefPart.pt (shortrf_push_ref e r).
Proof.
  intros e r r2; split; [reflexivity |].
  exact (proj2 (proj2 (proj2 (proj2 (proj2 (shortrf_ref_on_crest e r))))) r2 eq_refl).
Defined.

(** ** Kicker with zero strength *)

Lemma rigidity_at_rest (m q : R) (x y z t px py pz s : fl) :
  q <> 0 ->
  rigidity_Tm (RefPart.mk x y z t px py pz (Some (-1)) s m q) = Some 0.
Proof.
  intros Hq; unfold rigidity_Tm, beta_gamma, fsub, fmul, fpow, lit.
  cbn [RefPart.pt RefPart.mass RefPart.charge lift1 lift2].
  replace ((-1) ^ 2 - 1) with 0 by ring.
  rewrite fsqrt_nonneg by lra; rewrite sqrt_0, Rmult_0_r.
  unfold lit; rewrite fdiv_fin by exact Hq; f_equal; unfold Rdiv; ring.
Qed.

(** C6 (as stated, refuted): in T-m units the kick is divided by the
    reference rigidity; for a reference particle at rest ([pt = -1]) the
    rigidity is zero, [0 / 0] is NaN, and a zero-strength kicker does not
    return its input. *)
Lemma kicker_zero_rest_counterexample :
  let e := mkKicker 0 0 Tm in
  let p := Particle.mk (Some 0) (Some 0) (Some 0) (Some 0) (Some 0) (Some 0) 1%Z in
  let r := RefPart.mk (Some 0) (Some 0) (Some 0) (Some 0) (Some 0) (Some 0) (Some 0)
             (Some (-1)) (Some 0) 1 1 in
  kicker_push e p r <> p /\ Particle.px (kicker_push e p r) = None.
Proof.
  intros e p r.
  assert (Hpx : Particle.px (kicker_push e p r) = None).
  { unfold kicker_push, e, r; cbn [kk_unit kk_xkick kk_ykick Particle.px].
    rewrite rigidity_at_rest by lra.
    unfold lit; rewrite fdiv_zero; reflexivity. }
  split; [| exact Hpx].
  intros Heq; rewrite Heq in Hpx; discriminate.
Qed.

(** C6 (amended): with [xkick = ykick = 0] the kicker returns its input
    unchanged in dimensionless units for every reference particle, and in
    T-m units for every reference particle whose rigidity is finite and
    nonzero. *)
Theorem kicker_zero_identity (u : UnitSystem) (p : Particle.state) (r : RefPart.state)
  (Hrig : u = Tm -> exists rho, rigidity_Tm r = Some rho /\ rho <> 0) :
  kicker_push (mkKicker 0 0 u) p r = p.
Proof.
  destruct p as [x y t px py pt id]; unfold kicker_push; cbn [kk_unit kk_xkick kk_ykick].
  destruct u.
  - cbn; destruct px, py; cbn; try reflexivity; rewrite !Rplus_0_r; reflexivity.
  - destruct (Hrig eq_refl) as [rho [Hr Hne]]; rewrite Hr.
    unfold lit; rewrite fdiv_fin by exact Hne.
    replace (0 / rho) with 0 by (unfold Rdiv; ring).
    destruct px, py; cbn; try reflexivity; rewrite !Rplus_0_r; reflexivity.
Qed.

Lemma kicker_zero_identity_witness :
  let p := Particle.mk (Some 1) (Some 2) (Some 3) (Some 4) (Some 5) (Some 6) 1%Z in
  let r := RefPart.mk None None None None None None None (Some (-2)) None 1 1 in
  (exists rho, rigidity_Tm r = Some rho /\ rho <> 0) /\
  kicker_push (mkKicker 0 0 Tm) p r = p.
Proof.
  intros p r.
  assert (H : exists rho, rigidity_Tm r = Some rho /\ rho <> 0).
  { exists (1 * c_light * sqrt 3 / 1).
    unfold rigidity_Tm, beta_gamma, r, fsub, fmul, fpow, lit.
    cbn [RefPart.pt RefPart.mass RefPart.charge lift1 lift2].
    replace ((-2) ^ 2 - 1) with 3 by ring.
    rewrite fsqrt_nonneg by lra; cbn [lift2].
    unfold lit; rewrite fdiv_fin by lra.
    split; [reflexivity |].
    pose proof (sqrt_lt_R0 3 ltac:(lra)); unfold c_light; unfold Rdiv.
    rewrite Rinv_1, !Rmult_1_r, Rmult_1_l.
    apply Rmult_integral_contrapositive_currified; lra. }
  split; [exact H |].
  apply kicker_zero_identity; intros _; exact H.
Defined.

(** ** DipEdge with zero gap *)

(** C7: with gap [g = 0], [cos psi <> 0] and [rc <> 0], the fringe term is
    zero and the edge map is the zero-gap kick
    [px + (tan psi / rc) x], [py - (tan psi / rc) y]; [x, y, t, pt] and the
    id are unchanged. *)
Theorem dipedge_zero_gap (psi rc K2 : R) (Hc : cos psi <> 0) (Hrc : rc <> 0)
  (p : Particle.state) (r : RefPart.state) :
  let p' := dipedge_push (mkDipEdge psi rc 0 K2) p r in
  Particle.px p' = (Particle.px p + lit (tan psi / rc) * Particle.x p)%fl /\
  Particle.py p' = (Particle.py p - lit (tan psi / rc) * Particle.y p)%fl /\
  Particle.x p' = Particle.x p /\ Particle.y p' = Particle.y p /\
  Particle.t p' = Particle.t p /\ Particle.pt p' = Particle.pt p /\
  Particle.id p' = Particle.id p.
Proof.
  cbv zeta; unfold dipedge_push; cbn [de_psi de_rc de_g de_K2 Particle.px Particle.py
    Particle.x Particle.y Particle.t Particle.pt Particle.id].
  unfold ftan_std, fsin, fcos, fpow, fopp, fadd, fmul, lit; cbn [lift1 lift2].
  rewrite !fdiv_fin by (try apply pow_nonzero; assumption).
  cbn [lift1 lift2].
  repeat split; try reflexivity.
  destruct (Particle.py p), (Particle.y p); cbn; try reflexivity.
  f_equal; unfold Rdiv; ring.
Qed.

Lemma dipedge_zero_gap_witness :
  let p := Particle.mk (Some 1) (Some 2) (Some 0) (Some 0) (Some 0) (Some 0) 1%Z in
  let r := RefPart.mk None None None None None None None None None 1 1 in
  cos 0 <> 0 /\ 2 <> 0 /\
  Particle.py (dipedge_push (mkDipEdge 0 2 0 3) p r)
    = (Particle.py p - lit (tan 0 / 2) * Particle.y p)%fl.
Proof.
  intros p r.
  assert (Hc : cos 0 <> 0) by (rewrite cos_0; lra).
  split; [exact Hc | split; [lra |]].
  exact (proj1 (proj2 (dipedge_zero_gap 0 2 3 Hc ltac:(lra) p r))).
Defined.

(** ** Unguarded square root in ExactSbend *)

Lemma fl_none_simpl :
  (forall a, fadd a None = None) /\ (forall a, fsub a None = None) /\
  (forall a, fmul a None = None) /\ (forall a, fdiv a None = None) /\
  (forall a, fadd None a = None) /\ (forall a, fsub None a = None) /\
  (forall a, fmul None a = None) /\ (forall a, fdiv None a = None).
Proof. repeat split; intros []; reflexivity. Qed.

(** Rewrite every operation with a non-finite operand to [None]. *)
Ltac nan_prop :=
  let H := fresh in
  pose proof fl_none_simpl as H;
  destruct H as (?&?&?&?&?&?&?&?);
  repeat match goal with
         | h : forall a, _ = None |- _ => rewrite ?h; clear h
         end;
  cbn [fsqrt fasin fpow fsin fcos fsinh fcosh fabs fopp lift1].

(** C3: the ExactSbend map does not check the sign of
    [pt^2 - 2 pt / beta - py^2 + 1] before taking its square root: when it
    is negative, [px], [x], [y] and [t] all become non-finite. *)
Theorem exactsbend_pperp_unguarded (e : ExactSbend) (p : Particle.state)
  (r : RefPart.state) (bv ptv pyv : R)
  (Hbet : beta r = Some bv) (Hb0 : bv <> 0)
  (Hpt : Particle.pt p = Some ptv) (Hpy : Particle.py p = Some pyv)
  (Hneg : ptv ^ 2 - 2 / bv * ptv - pyv ^ 2 + 1 < 0) :
  let p' := exactsbend_push e p r in
  Particle.px p' = None /\ Particle.x p' = None /\
  Particle.y p' = None /\ Particle.t p' = None.
Proof.
  cbv zeta; unfold exactsbend_push; cbv zeta.
  rewrite Hbet, Hpt, Hpy.
  assert (Hpp : fsqrt (fpow (Some ptv) 2 - lit 2 / Some bv * Some ptv
                        - fpow (Some pyv) 2 + lit 1)%fl = None).
  { unfold lit; rewrite fdiv_fin by exact Hb0; apply fsqrt_neg; exact Hneg. }
  rewrite Hpp; cbn [Particle.px Particle.x Particle.y Particle.t].
  nan_prop.
  repeat split; nan_prop; reflexivity.
Qed.

Lemma beta_pt_m2 (x y z t px py pz s : fl) (m q : R) :
  beta (RefPart.mk x y z t px py pz (Some (-2)) s m q) = Some (sqrt (3 / 4)).
Proof.
  unfold beta, fsub, fadd, fpow, lit; cbn [RefPart.pt lift1 lift2].
  replace ((-2) ^ 2 - 1) with 3 by ring.
  rewrite fdiv_fin by lra.
  replace (3 / (1 + 3)) with (3 / 4) by field.
  apply fsqrt_nonneg; lra.
Qed.

Lemma exactsbend_pperp_unguarded_witness :
  let e := mkExactSbend 1 10 0 1 in
  let p := Particle.mk (Some 0) (Some 0) (Some 0) (Some 0) (Some 2) (Some 0) 1%Z in
  let r := RefPart.mk (Some 0) (Some 0) (Some 0) (Some 0) (Some 0) (Some 0) (Some 1)
             (Some (-2)) (Some 0) 1 1 in
  beta r = Some (sqrt (3 / 4)) /\ 0 < sqrt (3 / 4) < 1 /\
  0 ^ 2 - 2 / sqrt (3 / 4) * 0 - 2 ^ 2 + 1 < 0 /\
  Particle.px (exactsbend_push e p r) = None.
Proof.
  intros e p r.
  assert (Hb : beta r = Some (sqrt (3 / 4))) by apply beta_pt_m2.
  assert (Hpos : 0 < sqrt (3 / 4)) by (apply sqrt_lt_R0; lra).
  assert (Hlt1 : sqrt (3 / 4) < 1)
    by (rewrite <- sqrt_1; apply sqrt_lt_1_alt; lra).
  assert (Hneg : 0 ^ 2 - 2 / sqrt (3 / 4) * 0 - 2 ^ 2 + 1 < 0)
    by (rewrite Rmult_0_r; lra).
  split; [exact Hb | split; [lra | split; [exact Hneg |]]].
  exact (proj1 (exactsbend_pperp_unguarded e p r (sqrt (3 / 4)) 0 2 Hb
                  ltac:(lra) eq_refl eq_refl Hneg)).
Defined.

(** ** Zero focusing strength in CFbend *)

Lemma fsqrt_abs0 : fsqrt (fabs (Some 0)) = Some 0.
Proof. cbn [fabs lift1]; rewrite Rabs_R0, fsqrt_nonneg, sqrt_0 by lra; reflexivity. Qed.

Lemma fdiv_zero_mul (a b c : fl) : fdiv a (Some 0 * b * c)%fl = None.
Proof.
  destruct b as [b|], c as [c|]; cbn [fmul lift2]; try apply fdiv_none_r.
  apply fdiv_zero_eq; ring.
Qed.

(** C1: a zero focusing strength is not guarded.  With [k = 0] the
    vertical strength [gy = -k] is zero, the map takes the hyperbolic
    branch with [omegay = sqrt |gy| = 0] and divides [sinh 0] by it: [y]
    becomes non-finite for every particle.  With [k = -1/rc^2] the
    horizontal strength [gx] is zero and [x], [px] and [t] become
    non-finite in the same way. *)
Theorem cfbend_zero_strength_nan (e : CFbend) (p : Particle.state) (r : RefPart.state) :
  (cf_k e = 0 -> Particle.y (cfbend_push e p r) = None) /\
  (cf_rc e <> 0 -> cf_k e = - / cf_rc e ^ 2 ->
     Particle.x (cfbend_push e p r) = None /\
     Particle.px (cfbend_push e p r) = None /\
     Particle.t (cfbend_push e p r) = None).
Proof.
  split.
  - intros Hk; unfold cfbend_push; cbv zeta.
    destruct (fgt (lit (cf_k e) + fpow_m2 (lit (cf_rc e)))%fl 0); cbn beta iota.
    all: rewrite Hk.
    all: replace (- lit 0)%fl with (Some 0) by (unfold fopp, lit; cbn; f_equal; ring).
    all: rewrite (fgt_false 0 0) by lra; cbn beta iota; cbn [Particle.y].
    all: rewrite fsqrt_abs0, fdiv_zero; nan_prop; reflexivity.
  - intros Hrc Hk.
    assert (Hgx : (lit (cf_k e) + fpow_m2 (lit (cf_rc e)))%fl = Some 0).
    { unfold fpow_m2, fpow, lit; cbn [lift1].
      rewrite fdiv_fin by (apply pow_nonzero; exact Hrc).
      cbn; rewrite Hk; f_equal; field; exact Hrc. }
    unfold cfbend_push; cbv zeta.
    rewrite Hgx, (fgt_false 0 0) by lra; cbn beta iota.
    destruct (fgt (- lit (cf_k e))%fl 0); cbn beta iota;
      cbn [Particle.x Particle.px Particle.t].
    all: rewrite fsqrt_abs0, fdiv_zero, !fdiv_zero_mul; nan_prop; repeat split.
Qed.

Lemma cfbend_zero_strength_nan_witness :
  let p := Particle.mk (Some 1) (Some 1) (Some 0) (Some 0) (Some 0) (Some 0) 1%Z in
  let r := RefPart.mk None None None None None None None (Some (-2)) None 1 1 in
  Particle.y (cfbend_push (mkCFbend 1 1 0 1) p r) = None /\
  Particle.x (cfbend_push (mkCFbend 1 1 (-1) 1) p r) = None.
Proof.
  intros p r; split.
  - exact (proj1 (cfbend_zero_strength_nan (mkCFbend 1 1 0 1) p r) eq_refl).
  - refine (proj1 (proj2 (cfbend_zero_strength_nan (mkCFbend 1 1 (-1) 1) p r) _ _));
      cbn; [lra | field].
Defined.

(** * Further properties of the element maps *)

(** ** Thin transverse kicks *)

(** The kicker adds to [px] and [py] amounts fixed by the element and the
    reference particle. *)
Lemma kicker_push_shape (k : Kicker) (r : RefPart.state) :
  exists dpx dpy, forall p,
    kicker_push k p r =
    Particle.mk (Particle.x p) (Particle.y p) (Particle.t p)
      (Particle.px p + dpx)%fl (Particle.py p + dpy)%fl (Particle.pt p) (Particle.id p).
Proof.
  unfold kicker_push.
  destruct (kk_unit k); eexists; eexists; intros p; reflexivity.
Qed.

(** The edge map adds [R21 x] to [px] and [R43 y] to [py], with [R21] and
    [R43] fixed by the element. *)
Lemma dipedge_push_shape (d : DipEdge) (r : RefPart.state) :
  exists a b, forall p,
    dipedge_push d p r =
    Particle.mk (Particle.x p) (Particle.y p) (Particle.t p)
      (Particle.px p + a * Particle.x p)%fl (Particle.py p + b * Particle.y p)%fl
      (Particle.pt p) (Particle.id p).
Proof. eexists; eexists; intros p; reflexivity. Qed.

Lemma fadd_swap (a b c : fl) : (a + b + c)%fl = (a + c + b)%fl.
Proof. destruct a, b, c; cbn; try reflexivity; f_equal; ring. Qed.


(** A kicker and a dipole edge commute. *)
Theorem kicker_dipedge_commute (k : Kicker) (d : DipEdge) (p : Particle.state)
  (r : RefPart.state) :
  kicker_push k (dipedge_push d p r) r = dipedge_push d (kicker_push k p r) r.
Proof.
  destruct (kicker_push_shape k r) as (dpx & dpy & Hk).
  destruct (dipedge_push_shape d r) as (a & b & Hd).
  rewrite Hk, !Hd, Hk; cbn [Particle.x Particle.y Particle.t Particle.px Particle.py
    Particle.pt Particle.id].
  rewrite (fadd_swap (Particle.px p)), (fadd_swap (Particle.py p)); reflexivity.
Qed.

(** Two dipole edges commute. *)
Theorem dipedge_commute (d1 d2 : DipEdge) (p : Particle.state) (r : RefPart.state) :
  dipedge_push d1 (dipedge_push d2 p r) r = dipedge_push d2 (dipedge_push d1 p r) r.
Proof.
  destruct (dipedge_push_shape d1 r) as (a1 & b1 & H1).
  destruct (dipedge_push_shape d2 r) as (a2 & b2 & H2).
  rewrite H1, H2, H1, H2; cbn [Particle.x Particle.y Particle.t Particle.px Particle.py
    Particle.pt Particle.id].
  rewrite (fadd_swap (Particle.px p)), (fadd_swap (Particle.py p)); reflexivity.
Qed.


(** ** Loss status under the other thin elements *)



(** ** Aperture geometry *)

Lemma fgt_some_iff (u r : R) : fgt (Some u) r = true <-> r < u.
Proof. unfold fgt; destruct (Rlt_dec r u); split; intros; auto; discriminate || lra. Qed.

(** For a finite particle and nonzero half-widths, a particle the
    rectangular aperture marks lost is also marked lost by the elliptical
    aperture with the same half-widths. *)
Theorem aperture_rectangle_in_ellipse (xmax ymax : R) (p : Particle.state) (xv yv : R)
  (Hx : xmax <> 0) (Hy : ymax <> 0)
  (Hxv : Particle.x p = Some xv) (Hyv : Particle.y p = Some yv) :
  aperture_lost (mkAperture rectangular xmax ymax) p = true ->
  aperture_lost (mkAperture elliptical xmax ymax) p = true.
Proof.
  rewrite !(aperture_lost_fin _ _ _ p xv yv) by assumption.
  intros H; apply fgt_some_iff.
  apply Bool.orb_true_iff in H; destruct H as [H|H]; apply fgt_some_iff in H.
  - pose proof (pow2_ge_0 (yv / ymax)); lra.
  - pose proof (pow2_ge_0 (xv / xmax)); lra.
Qed.

Lemma aperture_rectangle_in_ellipse_witness :
  let p := Particle.mk (Some 3) (Some 0) None None None None 1%Z in
  aperture_lost (mkAperture rectangular 1 1) p = true /\
  aperture_lost (mkAperture elliptical 1 1) p = true.
Proof.
  intros p.
  assert (H : aperture_lost (mkAperture rectangular 1 1) p = true).
  { rewrite (aperture_lost_fin rectangular 1 1 p 3 0) by (reflexivity || lra).
    rewrite fgt_true; [reflexivity | unfold Rdiv; rewrite Rinv_1; lra]. }
  split; [exact H |].
  exact (aperture_rectangle_in_ellipse 1 1 p 3 0 ltac:(lra) ltac:(lra) eq_refl eq_refl H).
Defined.

Lemma scaled_sq_le (a w w' : R) : 0 < w -> w <= w' -> (a / w') ^ 2 <= (a / w) ^ 2.
Proof.
  intros Hw Hle.
  unfold Rdiv; rewrite !Rpow_mult_distr.
  apply Rmult_le_compat_l; [apply pow2_ge_0 |].
  apply pow_incr; split.
  - left; apply Rinv_0_lt_compat; lra.
  - apply Rinv_le_contravar; lra.
Qed.

(** Widening an aperture never loses more particles: a finite particle
    lost by an aperture with half-widths [xmax', ymax] is also lost by the
    same shape with smaller positive half-widths. *)
Theorem aperture_monotone (sh : Shape) (xmax ymax xmax' ymax' : R) (p : Particle.state)
  (xv yv : R) (Hx : 0 < xmax) (Hy : 0 < ymax) (Hx' : xmax <= xmax') (Hy' : ymax <= ymax')
  (Hxv : Particle.x p = Some xv) (Hyv : Particle.y p = Some yv) :
  aperture_lost (mkAperture sh xmax' ymax') p = true ->
  aperture_lost (mkAperture sh xmax ymax) p = true.
Proof.
  rewrite !(aperture_lost_fin _ _ _ p xv yv) by (try assumption; intro; lra).
  pose proof (scaled_sq_le xv xmax xmax' Hx Hx') as Su.
  pose proof (scaled_sq_le yv ymax ymax' Hy Hy') as Sv.
  destruct sh.
  - intros H; apply Bool.orb_true_iff in H; apply Bool.orb_true_iff.
    destruct H as [H|H]; apply fgt_some_iff in H; [left | right]; apply fgt_some_iff; lra.
  - intros H; apply fgt_some_iff in H; apply fgt_some_iff; lra.
Qed.

Lemma aperture_monotone_witness :
  let p := Particle.mk (Some 3) (Some 0) None None None None 1%Z in
  aperture_lost (mkAperture elliptical 2 2) p = true /\
  aperture_lost (mkAperture elliptical 1 1) p = true.
Proof.
  intros p.
  assert (H : aperture_lost (mkAperture elliptical 2 2) p = true).
  { rewrite (aperture_lost_fin elliptical 2 2 p 3 0) by (reflexivity || lra).
    rewrite fgt_true; [reflexivity | unfold Rdiv; simpl; lra]. }
  split; [exact H |].
  exact (aperture_monotone elliptical 1 1 2 2 p 3 0 ltac:(lra) ltac:(lra) ltac:(lra)
           ltac:(lra) eq_refl eq_refl H).
Defined.

(** The aperture test is symmetric under reflection [x -> -x], [y -> -y]. *)
Theorem aperture_reflection (a : Aperture) (p : Particle.state) :
  aperture_lost a (Particle.mk (- Particle.x p)%fl (- Particle.y p)%fl (Particle.t p)
                     (Particle.px p) (Particle.py p) (Particle.pt p) (Particle.id p))
  = aperture_lost a p.
Proof.
  unfold aperture_lost; cbn [Particle.x Particle.y].
  assert (Hneg : forall (w : fl) (m : R), fpow (- w / lit m)%fl 2 = fpow (w / lit m)%fl 2).
  { intros [w|] m; [|reflexivity].
    unfold lit, fdiv; cbn [fopp lift1]; destruct (Req_EM_T m 0); [reflexivity |].
    cbn; f_equal; field; assumption. }
  rewrite !Hneg; reflexivity.
Qed.

(** ** ShortRF: the particle map against the reference map *)

(** The particle map reads the already advanced reference particle and
    recovers the reference energy before the kick: it scales [px] and [py]
    by the ratio of the reference [beta*gamma] before and after the kick,
    and leaves the positions unchanged. *)
Theorem shortrf_transverse_scaling (e : ShortRF) (p : Particle.state) (r : RefPart.state)
  (ptr : R) (Hpt : RefPart.pt r = Some ptr) :
  let r' := shortrf_push_ref e r in
  let p' := shortrf_push e p r' in
  Particle.px p' = (Particle.px p * beta_gamma r / beta_gamma r')%fl /\
  Particle.py p' = (Particle.py p * beta_gamma r / beta_gamma r')%fl /\
  Particle.x p' = Particle.x p /\ Particle.y p' = Particle.y p /\
  Particle.t p' = Particle.t p.
Proof.
  cbv zeta.
  assert (Hi : (RefPart.pt (shortrf_push_ref e r)
                + lit (rf_V e) * fcos (lit (rf_phase e * (PI / 180))))%fl = RefPart.pt r).
  { unfold shortrf_push_ref; cbn [RefPart.pt]; rewrite Hpt.
    cbn; f_equal; ring. }
  unfold shortrf_push; cbv zeta; rewrite Hi.
  repeat split.
Qed.

Lemma shortrf_transverse_scaling_witness :
  let e := mkShortRF 1 1 0 in
  let r := RefPart.mk None None None None None None None (Some (-3)) None 1 1 in
  let p := Particle.mk (Some 0) (Some 0) (Some 0) (Some 1) (Some 1) (Some 0) 1%Z in
  RefPart.pt r = Some (-3) /\
  Particle.px (shortrf_push e p (shortrf_push_ref e r))
  = (Particle.px p * beta_gamma r / beta_gamma (shortrf_push_ref e r))%fl.
Proof.
  intros e r p; split; [reflexivity |].
  exact (proj1 (shortrf_transverse_scaling e p r (-3) eq_refl)).
Defined.

(** A particle on the reference phase ([t = 0]) with the reference energy
    ([pt = 0]) keeps [pt = 0], provided the reference energies before and
    after the kick are physical ([pt^2 >= 1], and [> 1] after). *)
Theorem shortrf_synchronous (e : ShortRF) (p : Particle.state) (r : RefPart.state)
  (ptr : R) (Hpt : RefPart.pt r = Some ptr) (Hf : 1 < ptr ^ 2)
  (Hi : 1 <= (ptr + rf_V e * cos (rf_phase e * (PI / 180))) ^ 2)
  (Ht : Particle.t p = Some 0) (Hp : Particle.pt p = Some 0) :
  Particle.pt (shortrf_push e p r) = Some 0.
Proof.
  unfold shortrf_push; cbv zeta; cbn [Particle.pt].
  rewrite Hpt, Ht, Hp; unfold lit.
  cbn [fpow fadd fsub fmul fcos lift1 lift2].
  rewrite (fsqrt_nonneg ((ptr + rf_V e * cos (rf_phase e * (PI / 180))) ^ 2 - 1)) by lra.
  rewrite fsqrt_nonneg by lra.
  cbn [fadd fsub fmul lift2].
  assert (Hs : sqrt (ptr ^ 2 - 1) <> 0) by (apply Rgt_not_eq, sqrt_lt_R0; lra).
  rewrite fdiv_fin by exact Hs.
  f_equal.
  replace ((2 * PI / c_light) * rf_freq e * 0 + rf_phase e * (PI / 180))
    with (rf_phase e * (PI / 180)) by ring.
  field; exact Hs.
Qed.

Lemma shortrf_synchronous_witness :
  let e := mkShortRF 1 1 0 in
  let r := RefPart.mk None None None None None None None (Some (-3)) None 1 1 in
  let p := Particle.mk (Some 2) (Some 0) (Some 0) (Some 1) (Some 1) (Some 0) 1%Z in
  1 < (-3) ^ 2 /\ 1 <= (-3 + 1 * cos (0 * (PI / 180))) ^ 2 /\
  Particle.pt (shortrf_push e p r) = Some 0.
Proof.
  intros e r p.
  assert (H1 : 1 < (-3) ^ 2) by lra.
  assert (H2 : 1 <= (-3 + 1 * cos (0 * (PI / 180))) ^ 2)
    by (rewrite Rmult_0_l, cos_0; lra).
  split; [exact H1 | split; [exact H2 |]].
  exact (shortrf_synchronous e p r (-3) eq_refl H1 H2 eq_refl eq_refl).
Defined.

(** With zero voltage, for a physical reference particle ([pt^2 > 1]), the
    ShortRF maps are the identity: on the reference particle, and on every
    particle whose [t] is finite. *)
Theorem shortrf_off_identity (freq phase : R) (p : Particle.state) (r : RefPart.state)
  (ptr tv : R) (Hpt : RefPart.pt r = Some ptr) (Hf : 1 < ptr ^ 2)
  (Ht : Particle.t p = Some tv) :
  shortrf_push (mkShortRF 0 freq phase) p r = p /\
  shortrf_push_ref (mkShortRF 0 freq phase) r = r.
Proof.
  assert (Hs : sqrt (ptr ^ 2 - 1) <> 0) by (apply Rgt_not_eq, sqrt_lt_R0; lra).
  split.
  - unfold shortrf_push; cbv zeta; cbn [rf_V rf_freq rf_phase].
    rewrite Hpt, Ht; unfold lit.
    cbn [fpow fadd fsub fmul fcos lift1 lift2].
    replace (ptr + 0 * cos (phase * (PI / 180))) with ptr by ring.
    rewrite fsqrt_nonneg by lra.
    destruct p as [x y t px py pt id]; cbn [Particle.x Particle.y Particle.t Particle.px
      Particle.py Particle.pt Particle.id] in *; subst t.
    f_equal; [destruct px | destruct py | destruct pt]; cbn [fmul fadd fsub lift2];
      try reflexivity; rewrite fdiv_fin by exact Hs; f_equal; field; exact Hs.
  - unfold shortrf_push_ref; cbv zeta; cbn [rf_V rf_phase].
    rewrite Hpt; unfold lit.
    cbn [fpow fadd fsub fmul fcos lift1 lift2].
    replace (ptr - 0 * cos (phase * (PI / 180))) with ptr by ring.
    rewrite fsqrt_nonneg by lra.
    destruct r as [x y z t px py pz pt s m q]; cbn [RefPart.x RefPart.y RefPart.z
      RefPart.t RefPart.px RefPart.py RefPart.pz RefPart.pt RefPart.s RefPart.mass
      RefPart.charge] in *; subst pt.
    f_equal; [destruct px | destruct py | destruct pz]; cbn [fmul lift2];
      try reflexivity; rewrite fdiv_fin by exact Hs; f_equal; field; exact Hs.
Qed.

Lemma shortrf_off_identity_witness :
  let r := RefPart.mk None None None None (Some 1) None None (Some (-3)) None 1 1 in
  let p := Particle.mk (Some 2) (Some 0) (Some 5) (Some 1) (Some 1) (Some 0) 1%Z in
  1 < (-3) ^ 2 /\ shortrf_push (mkShortRF 0 1 30) p r = p.
Proof.
  intros r p.
  assert (H1 : 1 < (-3) ^ 2) by lra.
  split; [exact H1 |].
  exact (proj1 (shortrf_off_identity 1 30 p r (-3) 5 eq_refl H1 eq_refl)).
Defined.

(** ** ThinDipole on the design orbit *)

(** A particle on the design orbit ([x = 0]) with the reference energy
    ([pt = 0]) passes the thin dipole unchanged, for a moving reference
    particle ([beta <> 0]) and a finite radius ([rc <> 0]). *)
Theorem thindipole_design_orbit (e : ThinDipole) (p : Particle.state) (r : RefPart.state)
  (b : R) (Hb : beta r = Some b) (Hb0 : b <> 0) (Hrc : td_rc e <> 0)
  (Hx : Particle.x p = Some 0) (Hpt : Particle.pt p = Some 0) :
  thindipole_push e p r = p.
Proof.
  unfold thindipole_push; cbv zeta.
  rewrite Hb, Hx, Hpt; unfold lit.
  rewrite (fdiv_fin 1 (td_rc e)) by exact Hrc.
  cbn [fpow fadd fsub fmul fopp lift1 lift2].
  rewrite fdiv_fin by exact Hb0.
  cbn [fadd fsub lift2].
  replace (1 - 2 * 0 / b + 0 ^ 2) with 1 by (field; exact Hb0).
  rewrite fsqrt_nonneg by lra; rewrite sqrt_1.
  cbn [fadd fmul fsub lift2].
  rewrite fdiv_fin by (intro Hz; apply Hb0; rewrite <- Hz; ring).
  destruct p as [x y t px py pt id]; cbn [Particle.x Particle.y Particle.t Particle.px
    Particle.py Particle.pt Particle.id] in *; subst x pt.
  f_equal; [destruct t | destruct px]; cbn [fadd fsub fmul lift2];
    try reflexivity; f_equal; ring.
Qed.

Lemma thindipole_design_orbit_witness :
  let e := mkThinDipoleRaw (1 / 10) 2 in
  let r := RefPart.mk None None None None None None None (Some (-2)) None 1 1 in
  let p := Particle.mk (Some 0) (Some 3) (Some 5) (Some 1) (Some 1) (Some 0) 7%Z in
  beta r = Some (sqrt (3 / 4)) /\ thindipole_push e p r = p.
Proof.
  intros e r p.
  assert (Hb : beta r = Some (sqrt (3 / 4))).
  { unfold beta; cbn [RefPart.pt r]; unfold lit; cbn [fpow fadd fsub lift1 lift2].
    rewrite fdiv_fin by lra.
    rewrite fsqrt_nonneg by lra.
    do 2 f_equal; field. }
  split; [exact Hb |].
  apply (thindipole_design_orbit e p r _ Hb); cbn; try reflexivity.
  - apply Rgt_not_eq, sqrt_lt_R0; lra.
  - lra.
Defined.

(** ** Bends: the reference momentum is rotated by the bending angle *)

Lemma rotate_step (th a b : R) (k : nat) :
  (a * cos (INR k * th) - b * sin (INR k * th)) * cos th
    - (b * cos (INR k * th) + a * sin (INR k * th)) * sin th
  = a * cos (INR (S k) * th) - b * sin (INR (S k) * th) /\
  (b * cos (INR k * th) + a * sin (INR k * th)) * cos th
    + (a * cos (INR k * th) - b * sin (INR k * th)) * sin th
  = b * cos (INR (S k) * th) + a * sin (INR (S k) * th).
Proof.
  rewrite S_INR; replace ((INR k + 1) * th) with (INR k * th + th) by ring.
  rewrite cos_plus, sin_plus; split; ring.
Qed.

(** If one application of a reference map rotates [(px, pz)] by [th] and
    keeps [py], [k] applications rotate it by [k * th]. *)
Lemma push_ref_n_rotate {E} `{BeamOptic E} (e : E) (th : R) :
  (forall r a b, RefPart.px r = Some a -> RefPart.pz r = Some b ->
     RefPart.px (push_ref e r) = Some (a * cos th - b * sin th) /\
     RefPart.pz (push_ref e r) = Some (b * cos th + a * sin th) /\
     RefPart.py (push_ref e r) = RefPart.py r) ->
  forall k r a b, RefPart.px r = Some a -> RefPart.pz r = Some b ->
    RefPart.px (push_ref_n e k r) = Some (a * cos (INR k * th) - b * sin (INR k * th)) /\
    RefPart.pz (push_ref_n e k r) = Some (b * cos (INR k * th) + a * sin (INR k * th)) /\
    RefPart.py (push_ref_n e k r) = RefPart.py r.
Proof.
  intros Hstep k; induction k as [|k IH]; intros r a b Ha Hb.
  - change (push_ref_n e 0 r) with r; cbn [INR].
    rewrite Rmult_0_l, cos_0, sin_0, Ha, Hb.
    split; [|split]; [f_equal; ring | f_equal; ring | reflexivity].
  - change (push_ref_n e (S k) r) with (push_ref e (push_ref_n e k r)).
    destruct (IH r a b Ha Hb) as (H1 & H2 & H3).
    destruct (Hstep _ _ _ H1 H2) as (G1 & G2 & G3).
    destruct (rotate_step th a b k) as [R1 R2].
    rewrite G1, G2, G3, H3, <- R1, <- R2; split; [|split]; reflexivity.
Qed.

(** Over its [nslice] slices an ExactSbend rotates the reference momentum
    [(px, pz)] by the full bending angle [phi], and keeps [py]. *)
Theorem exactsbend_ref_rotation (e : ExactSbend) (r : RefPart.state) (a b : R)
  (Hn : (0 < es_nslice e)%Z) (Ha : RefPart.px r = Some a) (Hb : RefPart.pz r = Some b) :
  let r' := push_ref_n e (Z.to_nat (es_nslice e)) r in
  RefPart.px r' = Some (a * cos (es_phi e) - b * sin (es_phi e)) /\
  RefPart.pz r' = Some (b * cos (es_phi e) + a * sin (es_phi e)) /\
  RefPart.py r' = RefPart.py r.
Proof.
  cbv zeta.
  assert (Hz : IZR (es_nslice e) <> 0) by (apply not_0_IZR; lia).
  assert (Hk : INR (Z.to_nat (es_nslice e)) * (es_phi e / IZR (es_nslice e)) = es_phi e).
  { rewrite INR_IZR_INZ, Z2Nat.id by lia; field; exact Hz. }
  rewrite <- Hk at 1 2 3 4.
  apply (push_ref_n_rotate e); [| exact Ha | exact Hb].
  intros r0 a0 b0 Ha0 Hb0; cbn [push ExactSbend_optic push_ref].
  unfold exactsbend_push_ref; cbv zeta; cbn [RefPart.px RefPart.pz RefPart.py].
  rewrite Ha0, Hb0; unfold lit; rewrite fdiv_fin by exact Hz.
  cbn [fsin fcos fmul fadd fsub lift1 lift2].
  split; [|split]; reflexivity.
Qed.

Lemma exactsbend_ref_rotation_witness :
  let e := mkExactSbendRaw 2 (PI / 2) 0 4 in
  let r := RefPart.mk None None None None (Some 0) (Some 0) (Some 1) (Some (-2)) None 1 1 in
  RefPart.px (push_ref_n e 4 r) = Some (0 * cos (PI / 2) - 1 * sin (PI / 2)).
Proof.
  intros e r.
  exact (proj1 (exactsbend_ref_rotation e r 0 1 ltac:(cbn; lia) eq_refl eq_refl)).
Defined.

(** Over its [nslice] slices a CFbend of radius [rc] rotates the reference
    momentum [(px, pz)] by [ds / rc], and keeps [py]. *)
Theorem cfbend_ref_rotation (e : CFbend) (r : RefPart.state) (a b : R)
  (Hn : (0 < cf_nslice e)%Z) (Hrc : cf_rc e <> 0)
  (Ha : RefPart.px r = Some a) (Hb : RefPart.pz r = Some b) :
  let r' := push_ref_n e (Z.to_nat (cf_nslice e)) r in
  let th := cf_ds e / cf_rc e in
  RefPart.px r' = Some (a * cos th - b * sin th) /\
  RefPart.pz r' = Some (b * cos th + a * sin th) /\
  RefPart.py r' = RefPart.py r.
Proof.
  cbv zeta.
  assert (Hz : IZR (cf_nslice e) <> 0) by (apply not_0_IZR; lia).
  assert (Hk : INR (Z.to_nat (cf_nslice e)) * (cf_ds e / IZR (cf_nslice e) / cf_rc e)
               = cf_ds e / cf_rc e).
  { rewrite INR_IZR_INZ, Z2Nat.id by lia; field; split; assumption. }
  rewrite <- Hk at 1 2 3 4.
  apply (push_ref_n_rotate e); [| exact Ha | exact Hb].
  intros r0 a0 b0 Ha0 Hb0; cbn [push CFbend_optic push_ref].
  unfold cfbend_push_ref; cbv zeta; cbn [RefPart.px RefPart.pz RefPart.py].
  rewrite Ha0, Hb0; unfold lit; rewrite fdiv_fin by exact Hz.
  rewrite fdiv_fin by exact Hrc.
  cbn [fsin fcos fmul fadd fsub lift1 lift2].
  split; [|split]; reflexivity.
Qed.

Lemma cfbend_ref_rotation_witness :
  let e := mkCFbend 3 2 1 3 in
  let r := RefPart.mk None None None None (Some 0) (Some 0) (Some 1) (Some (-2)) None 1 1 in
  RefPart.px (push_ref_n e 3 r) = Some (0 * cos (3 / 2) - 1 * sin (3 / 2)).
Proof.
  intros e r.
  exact (proj1 (cfbend_ref_rotation e r 0 1 ltac:(cbn; lia) ltac:(cbn; lra) eq_refl eq_refl)).
Defined.

(** ** ExactSbend: the design particle over one slice *)

(** For a bend given by its length and angle ([B = 0]), the particle at the
    origin with the reference energy keeps [x = y = px = py = pt = 0] over
    one slice, but its [t] moves by [ds/beta * (1/nslice - 1)]: the time
    term subtracts the full angle [phi] where the path uses the slice angle
    [phi/nslice]. The shift vanishes only for one slice. *)
Theorem exactsbend_design_particle (ds phi : R) (n : Z) (r : RefPart.state) (b : R) (id : Z)
  (Hds : ds <> 0) (Hphi : phi <> 0) (Hn : IZR n <> 0)
  (Hb : beta r = Some b) (Hb0 : b <> 0) :
  exactsbend_push (mkExactSbendRaw ds phi 0 n)
    (Particle.mk (Some 0) (Some 0) (Some 0) (Some 0) (Some 0) (Some 0) id) r
  = Particle.mk (Some 0) (Some 0) (Some (ds / b * (1 / IZR n - 1)))
      (Some 0) (Some 0) (Some 0) id.
Proof.
  assert (Hrc : es_rc (mkExactSbendRaw ds phi 0 n) r = Some (ds / phi)).
  { unfold es_rc; cbn [es_B es_ds es_phi]; destruct (Req_EM_T 0 0); [|lra].
    unfold lit; apply fdiv_fin; exact Hphi. }
  assert (Hrc0 : ds / phi <> 0) by (unfold Rdiv; apply Rmult_integral_contrapositive_currified; [exact Hds | apply Rinv_neq_0_compat; exact Hphi]).
  unfold exactsbend_push; cbv zeta; cbn [Particle.x Particle.y Particle.t Particle.px Particle.py Particle.pt Particle.id es_phi es_nslice].
  rewrite Hrc, Hb; unfold lit.
  rewrite (fdiv_fin phi) by exact Hn.
  rewrite (fdiv_fin 2) by exact Hb0.
  rewrite (fdiv_fin 1) by exact Hb0.
  cbn [fpow fadd fsub fmul fopp fsin fcos lift1 lift2].
  replace (0 ^ 2 - 2 / b * 0 - 0 ^ 2 + 1) with 1 by (field; exact Hb0).
  rewrite fsqrt_nonneg, sqrt_1 by lra.
  cbn [fpow fadd fsub fmul fopp lift1 lift2].
  replace (1 ^ 2 - 0 ^ 2) with 1 by ring.
  rewrite fsqrt_nonneg, sqrt_1 by lra.
  rewrite (fdiv_fin (ds / phi + 0)) by exact Hrc0.
  replace ((ds / phi + 0) / (ds / phi)) with 1 by (field; split; assumption).
  cbn [fpow fadd fsub fmul fopp lift1 lift2].
  replace (0 * cos (phi / IZR n) + (1 - 1) * sin (phi / IZR n)) with 0 by ring.
  cbn [fpow fadd fsub fmul fopp lift1 lift2].
  replace (1 ^ 2 - 0 ^ 2) with 1 by ring.
  rewrite fsqrt_nonneg, sqrt_1 by lra.
  rewrite (fdiv_fin 0 1) by lra.
  replace (0 / 1) with 0 by field.
  unfold fasin; rewrite Rabs_R0; destruct (Rle_dec 0 1) as [_|]; [|lra].
  rewrite asin_0.
  cbn [fpow fadd fsub fmul fopp lift1 lift2].
  rewrite fdiv_fin by exact Hb0.
  f_equal; f_equal; field; repeat split; assumption.
Qed.

Lemma exactsbend_design_particle_witness :
  let r := RefPart.mk None None None None None None None (Some (-2)) None 1 1 in
  beta r = Some (sqrt (3 / 4)) /\
  exactsbend_push (mkExactSbendRaw 2 1 0 2)
    (Particle.mk (Some 0) (Some 0) (Some 0) (Some 0) (Some 0) (Some 0) 1%Z) r
  = Particle.mk (Some 0) (Some 0) (Some (2 / sqrt (3 / 4) * (1 / IZR 2 - 1)))
      (Some 0) (Some 0) (Some 0) 1%Z.
Proof.
  intros r.
  assert (Hb : beta r = Some (sqrt (3 / 4))).
  { unfold beta; cbn [RefPart.pt r]; unfold lit; cbn [fpow fadd fsub lift1 lift2].
    rewrite fdiv_fin by lra.
    rewrite fsqrt_nonneg by lra.
    do 2 f_equal; field. }
  split; [exact Hb |].
  apply (exactsbend_design_particle 2 1 2 r _ 1 ltac:(lra) ltac:(lra) ltac:(cbn; lra) Hb).
  apply Rgt_not_eq, sqrt_lt_R0; lra.
Defined.
